(** * Two-sum: a shallow embedding of [workspace/manual-test/main.cpp]

    The program consists of one function, [twoSum], and a [main] that reads
    the input from [cin] and prints the two indices on [cout].

    - C++ [int] values are modelled as [Z] restricted to the 32-bit range,
      with two's complement wrap-around written out ([wrap]).
    - [vector<int>] is a [list Z]; [operator[]] is stdpp's list lookup, out
      of range being undefined behaviour.
    - [unordered_map<int,int>] is a [gmap Z Z].
    - The [for] loop of [twoSum] is a transition system on the function's
      frame ([nums], [seen], [i]); one transition is one loop iteration. *)

From stdpp Require Import gmap list strings.
From Stdlib Require Import ZArith Lia Ascii.
From Stdlib Require DecimalString DecimalPos.

Local Open Scope Z_scope.

(** ** The [int] type *)

Module Int.

Definition INT_MIN : Z := - 2 ^ 31.
Definition INT_MAX : Z := 2 ^ 31 - 1.

(** The values an [int] object can hold. *)
Definition is_int (z : Z) : Prop := INT_MIN <= z <= INT_MAX.

Definition is_intb (z : Z) : bool := (INT_MIN <=? z) && (z <=? INT_MAX).

(** Reduction of a mathematical result into the 32-bit two's complement
    range. *)
Definition wrap (z : Z) : Z := (z + 2 ^ 31) mod 2 ^ 32 - 2 ^ 31.

(** [a + b] and [a - b] on [int] operands. *)
Definition add (a b : Z) : Z := wrap (a + b).
Definition sub (a b : Z) : Z := wrap (a - b).

(** Conversion of an [int] to [size_t] (64 bits, unsigned), as done by the
    comparison [i < nums.size()] and by [nums[i]]. *)
Definition to_size_t (z : Z) : Z := z mod 2 ^ 64.

End Int.

(** ** [twoSum] *)

(** The frame of a call: the vector the reference parameter [nums] is bound
    to, and the locals [seen] and [i]. *)
Record frame : Type := Frame {
  nums : list Z;
  seen : gmap Z Z;
  i : Z
}.

(** Where the execution of the loop stands: about to run the body in frame
    [s], returned [r] with final frame [s], or stopped at a read of [nums]
    out of range. (Signed overflow, also undefined in C++, is not a
    status: it gets the wrap-around value.) *)
Inductive status : Type :=
| Running (s : frame)
| Halted (s : frame) (r : list Z)
| Undefined.

(** [nums[k]] for an [int] index [k]. *)
Definition at_int (v : list Z) (k : Z) : option Z :=
  v !! Z.to_nat (Int.to_size_t k).

(** [i < nums.size()] *)
Definition loop_guard (s : frame) : bool :=
  Int.to_size_t (i s) <? Z.of_nat (length (nums s)).

(** The loop test: when it fails the function reaches [return {};]. *)
Definition test (s : frame) : status :=
  if loop_guard s then Running s else Halted s [].

(** One iteration: the body, then [i++], then the loop test. *)
Definition body (target : Z) (s : frame) : status :=
  match at_int (nums s) (i s) with
  | None => Undefined
  | Some x =>
      let complement := Int.sub target x in
      match seen s !! complement with
      | Some p => Halted s [p; i s]
      | None =>
          test {| nums := nums s;
                  seen := <[x := i s]> (seen s);
                  i := Int.add (i s) 1 |}
      end
  end.

Definition iteration (target : Z) (st : status) : status :=
  match st with
  | Running s => body target s
  | _ => st
  end.

(** [k] iterations. *)
Fixpoint run (k : nat) (target : Z) (st : status) : status :=
  match k with
  | O => st
  | S k' => run k' target (iteration target st)
  end.

(** Entry of the function: [seen] is empty, [i = 0], first loop test. *)
Definition enter (v : list Z) : status :=
  test {| nums := v; seen := ∅; i := 0 |}.

(** The whole call, with as many iterations as the vector has elements. *)
Definition twoSum_exec (v : list Z) (target : Z) : status :=
  run (length v) target (enter v).

(** The returned vector; [None] when the call has no defined result. *)
Definition twoSum (v : list Z) (target : Z) : option (list Z) :=
  match twoSum_exec v target with
  | Halted _ r => Some r
  | _ => None
  end.

(** *** Cost of a call

    The container operations one iteration performs from frame [s]:
    [nums[i]] and [seen.count(complement)], then either [seen[complement]]
    for the returned vector, or [nums[i]], [seen[...] = i] and the
    [nums.size()] of the next loop test. Each operation counts for one (an
    [unordered_map] access is constant time on average). *)
Definition accesses (target : Z) (s : frame) : nat :=
  match at_int (nums s) (i s) with
  | None => 1
  | Some x =>
      match seen s !! Int.sub target x with
      | Some _ => 3
      | None => 5
      end
  end.

(** The operations of the first [k] iterations from [st]. *)
Fixpoint cost (k : nat) (target : Z) (st : status) : nat :=
  match k, st with
  | S k', Running s => accesses target s + cost k' target (body target s)
  | _, _ => 0
  end.

(** The operations of a call: the first loop test, then the iterations. *)
Definition twoSum_cost (v : list Z) (target : Z) : nat :=
  1 + cost (length v) target (enter v).

(** ** [main] *)

(** [cin], reduced to what this program observes of it: the integer tokens
    not yet consumed (each one a decimal literal of any magnitude) and
    whether the stream is still good. *)
Record istream : Type := IStream {
  tokens : list Z;
  good : bool
}.

(** The value [operator>>] stores for a literal that does not fit an [int]. *)
Definition clamp (t : Z) : Z :=
  if t <? Int.INT_MIN then Int.INT_MIN else Int.INT_MAX.

(** [cin >> x] for an [int] object [x] whose content before the extraction
    is [old] ([None]: not initialised). A stream that is not good, or that
    has reached the end of the input, leaves [x] as it is; a literal out of
    range is stored clamped and fails the stream. *)
Definition extract (cin : istream) (old : option Z) : istream * option Z :=
  if good cin then
    match tokens cin with
    | [] => (IStream [] false, old)
    | t :: ts =>
        if Int.is_intb t then (IStream ts true, Some t)
        else (IStream ts false, Some (clamp t))
    end
  else (cin, old).

(** The loop [for (int i = 0; i < n; i++) cin >> nums[i];] with [k]
    iterations left and [i = idx]. *)
Fixpoint read_nums (k idx : nat) (cin : istream) (v : list Z)
  : istream * list Z :=
  match k with
  | O => (cin, v)
  | S k' =>
      let '(cin', x) := extract cin (v !! idx) in
      read_nums k' (S idx) cin'
        (match x with Some x => <[idx := x]> v | None => v end)
  end.

(** [cout << k] for an [int] [k]. *)
Definition show_int (k : Z) : string :=
  DecimalString.NilZero.string_of_int (Z.to_int k).

(** What a run of the program amounts to: it wrote [out] on [cout] and
    returned 0, it was terminated by an exception nobody catches, or its
    behaviour is undefined. *)
Inductive outcome : Type :=
| Printed (out : string)
| Terminated
| UndefinedBehaviour.

(** The program, on the integer tokens of its standard input. [n] and
    [target] are not initialised before their extraction, so an extraction
    that leaves one of them untouched makes its use undefined; a negative
    [n] makes the constructor of [nums] throw [length_error]; a
    non-negative one gives [n] zeros (storage is assumed to be there);
    [result[0]] and [result[1]] are undefined out of range. *)
Definition main (stdin : list Z) : outcome :=
  let '(cin, n) := extract (IStream stdin true) None in
  match n with
  | None => UndefinedBehaviour
  | Some n =>
      if n <? 0 then Terminated
      else
        let '(cin, v) :=
          read_nums (Z.to_nat n) 0 cin (replicate (Z.to_nat n) 0) in
        let '(cin, target) := extract cin None in
        match target with
        | None => UndefinedBehaviour
        | Some target =>
            match twoSum v target with
            | None => UndefinedBehaviour
            | Some result =>
                match result !! 0%nat, result !! 1%nat with
                | Some r0, Some r1 =>
                    Printed ("[" +:+ show_int r0 +:+ "," +:+ show_int r1 +:+ "]")
                | _, _ => UndefinedBehaviour
                end
            end
        end
  end.

(** White space, as [isspace] classifies it. *)
Definition is_space (c : ascii) : bool :=
  existsb (Ascii.eqb c) [" "; "009"; "010"; "011"; "012"; "013"]%char.

(** No character of [s] is white space. *)
Fixpoint no_space (s : string) : bool :=
  match s with
  | EmptyString => true
  | String c s' => negb (is_space c) && no_space s'
  end.

(** ** Specification vocabulary *)

(** The digit a character stands for: the characters from code 48 (the
    digit zero) to code 57 (the digit nine). *)
Definition digit_of (c : ascii) : option Z :=
  let code := Z.of_N (N_of_ascii c) in
  if (48 <=? code) && (code <=? 57) then Some (code - 48) else None.

(** The number [acc] followed by the digits of [s] denotes, most
    significant digit first; [None] when [s] holds anything but digits. *)
Fixpoint digits_value (acc : Z) (s : string) : option Z :=
  match s with
  | EmptyString => Some acc
  | String c s' =>
      match digit_of c with
      | Some d => digits_value (10 * acc + d) s'
      | None => None
      end
  end.

(** The number a decimal numeral denotes: one digit at least, digits only,
    and no leading zero (so that a number has exactly one numeral). *)
Definition numeral_value (s : string) : option Z :=
  match s with
  | EmptyString => None
  | String "0"%char (String _ _) => None
  | _ => digits_value 0 s
  end.

(** The values at positions [a] and [b] add up, as [int]s, to [target]. *)
Definition sums_to (v : list Z) (target : Z) (a b : nat) : Prop :=
  ∃ x y, v !! a = Some x ∧ v !! b = Some y ∧ Int.add x y = target.

(** A valid pair, first index before second index. *)
Definition valid_pair (v : list Z) (target : Z) (a b : nat) : Prop :=
  (a < b)%nat ∧ sums_to v target a b.

(** Some two distinct positions hold values that sum to the target. *)
Definition has_pair (v : list Z) (target : Z) : Prop :=
  ∃ a b, a ≠ b ∧ sums_to v target a b.

(** [q] is the last position before [k] that holds [x]. *)
Definition latest_before (v : list Z) (x : Z) (k q : nat) : Prop :=
  (q < k)%nat ∧ v !! q = Some x ∧
  ∀ q', (q < q' < k)%nat → v !! q' ≠ Some x.

(** [q] is the first position before [k] that holds [x]. *)
Definition earliest_before (v : list Z) (x : Z) (k q : nat) : Prop :=
  (q < k)%nat ∧ v !! q = Some x ∧
  ∀ q', (q' < q)%nat → v !! q' ≠ Some x.

(** A [vector<int>] whose positions an [int] can count: every element is an
    [int] and the size does not exceed [INT_MAX] (the vector [main] builds
    has an [int] size). *)
Definition int_vector (v : list Z) : Prop :=
  Forall Int.is_int v ∧ Z.of_nat (length v) <= Int.INT_MAX.

(** The loop invariant at the head of iteration [k]: [nums] is the caller's
    vector, [i = k], [seen] maps exactly the values at positions below [k],
    each to the last such position, no valid pair has its second index below
    [k], and [seen] holds at most [k] entries. *)
Definition loop_inv (v : list Z) (target : Z) (k : nat) (s : frame) : Prop :=
  nums s = v ∧ i s = Z.of_nat k ∧ (k ≤ length v)%nat ∧
  (∀ x p, seen s !! x = Some p → ∃ q, p = Z.of_nat q ∧ latest_before v x k q) ∧
  (∀ x, seen s !! x = None → ∀ q, (q < k)%nat → v !! q ≠ Some x) ∧
  (∀ a b, (b < k)%nat → ¬ valid_pair v target a b) ∧
  (size (seen s) ≤ k)%nat.

(** What a returned vector [r] says about the input. *)
Definition result_spec (v : list Z) (target : Z) (r : list Z) : Prop :=
  (r = [] ∧ ∀ a b, ¬ valid_pair v target a b) ∨
  (∃ p j y, r = [Z.of_nat p; Z.of_nat j] ∧
     v !! j = Some y ∧
     latest_before v (Int.sub target y) j p ∧
     valid_pair v target p j ∧
     ∀ a b, valid_pair v target a b → (j ≤ b)%nat).

(** ** Tactics for literal inputs *)

Ltac solve_is_int := by vm_compute.

Ltac solve_int_vector :=
  split; [repeat constructor; by vm_compute | by vm_compute].

(** Positions [a] and [b] of a literal vector sum to the target. *)
Ltac solve_has_pair a b :=
  exists a, b; split; [lia|]; eexists _, _; split_and!; reflexivity.

(** No two positions of a literal vector of three elements do. *)
Ltac solve_no_pair3 :=
  let a := fresh "a" in
  let b := fresh "b" in
  let Ha := fresh "Ha" in
  let Hb := fresh "Hb" in
  let Hsum := fresh "Hsum" in
  intros (a & b & _ & ? & ? & Ha & Hb & Hsum);
  destruct a as [|[|[|a]]]; destruct b as [|[|[|b]]];
  simpl in Ha, Hb; try discriminate;
  injection Ha as <-; injection Hb as <-;
  vm_compute in Hsum; discriminate.

(** ** The scenarios of the specification *)

Example scenario_1 : twoSum [2; 7; 11; 15] 9 = Some [0; 1].
Proof. reflexivity. Qed.

Example scenario_2 : twoSum [3; 2; 4] 6 = Some [1; 2].
Proof. reflexivity. Qed.

Example scenario_4 : twoSum [1; 2; 3] 100 = Some [].
Proof. reflexivity. Qed.

(** The complement is computed in [int] arithmetic: for the target
    [INT_MIN], the complement of 1 is [INT_MAX]. *)
Example scenario_wrap :
  twoSum [2147483647; 1] (-2147483648) = Some [0; 1] ∧
  Int.add 2147483647 1 = -2147483648.
Proof. split; reflexivity. Qed.

Example scenario_main : main [4; 2; 7; 11; 15; 9] = Printed "[0,1]".
Proof. reflexivity. Qed.

Example scenario_main_two_digits :
  main [12; 0; 0; 0; 0; 0; 0; 0; 0; 0; 0; 40; 2; 42] = Printed "[10,11]".
Proof. reflexivity. Qed.

Example numeral_value_samples :
  numeral_value "0" = Some 0 ∧ numeral_value "10" = Some 10 ∧
  numeral_value "2147483647" = Some 2147483647 ∧
  numeral_value "" = None ∧ numeral_value "007" = None ∧
  numeral_value "1 " = None ∧ numeral_value "-1" = None.
Proof. repeat split. Qed.

Example no_space_samples :
  no_space "[10,11]" = true ∧ no_space "[10, 11]" = false ∧
  no_space (String "010" "[10,11]") = false.
Proof. repeat split. Qed.

Example scenario_main_none : main [3; 1; 2; 3; 100] = UndefinedBehaviour.
Proof. reflexivity. Qed.

Example show_int_samples :
  show_int 0 = "0"%string ∧ show_int 10 = "10"%string ∧ show_int (-5) = "-5"%string.
Proof. repeat split. Qed.

(** ** Arithmetic of [int] *)

Section int_arith.
Import Int.

Lemma int_wrap_eq z : wrap z = z - 2 ^ 32 * ((z + 2 ^ 31) / 2 ^ 32).
Proof.
  unfold wrap. rewrite Z.mod_eq by lia. lia.
Qed.

Lemma int_wrap_is_int z : is_int (wrap z).
Proof.
  unfold wrap, is_int, INT_MIN, INT_MAX.
  pose proof (Z.mod_pos_bound (z + 2 ^ 31) (2 ^ 32) ltac:(lia)). lia.
Qed.

Lemma int_wrap_id z : is_int z → wrap z = z.
Proof.
  unfold wrap, is_int, INT_MIN, INT_MAX. intros Hz.
  rewrite Z.mod_small by lia. lia.
Qed.

Lemma int_wrap_shift z q : wrap (z + q * 2 ^ 32) = wrap z.
Proof.
  unfold wrap.
  replace (z + q * 2 ^ 32 + 2 ^ 31) with (z + 2 ^ 31 + q * 2 ^ 32) by lia.
  by rewrite Z_mod_plus_full.
Qed.

Lemma int_add_comm a b : add a b = add b a.
Proof. unfold add. by rewrite Z.add_comm. Qed.

(** When the mathematical sum fits, [int] addition is exact. *)
Lemma int_add_exact a b : is_int (a + b) → add a b = a + b.
Proof. apply int_wrap_id. Qed.

Lemma int_sub_exact a b : is_int (a - b) → sub a b = a - b.
Proof. apply int_wrap_id. Qed.

(** The complement test of the loop body finds exactly the values that
    add up to the target. *)
Lemma int_sub_add_iff t a b :
  is_int t → is_int a → sub t b = a ↔ add a b = t.
Proof.
  intros Ht Ha. unfold sub, add. split; intros H.
  - rewrite <- (int_wrap_id t Ht). rewrite <- H, (int_wrap_eq (t - b)).
    set (q := (t - b + 2 ^ 31) / 2 ^ 32).
    replace (t - b - 2 ^ 32 * q + b) with (t + (- q) * 2 ^ 32) by lia.
    apply int_wrap_shift.
  - rewrite <- (int_wrap_id a Ha). rewrite <- H, (int_wrap_eq (a + b)).
    set (q := (a + b + 2 ^ 31) / 2 ^ 32).
    replace (a + b - 2 ^ 32 * q - b) with (a + (- q) * 2 ^ 32) by lia.
    apply int_wrap_shift.
Qed.

Lemma int_to_size_t_id z : 0 <= z <= INT_MAX → to_size_t z = z.
Proof.
  unfold to_size_t, INT_MAX. intros Hz. apply Z.mod_small. lia.
Qed.

Lemma int_is_intb_spec z : is_intb z = true ↔ is_int z.
Proof. unfold is_intb, is_int. rewrite andb_true_iff. lia. Qed.

End int_arith.

(** ** The loop of [twoSum] *)

Section loop.
Variables (v : list Z) (target : Z).
Hypothesis Hv : int_vector v.
Hypothesis Ht : Int.is_int target.

Lemma index_fits (k : nat) :
  (k ≤ length v)%nat → 0 <= Z.of_nat k <= Int.INT_MAX.
Proof. destruct Hv as [_ Hlen]. lia. Qed.

Lemma at_int_index (k : nat) :
  (k ≤ length v)%nat → at_int v (Z.of_nat k) = v !! k.
Proof.
  intros Hk. unfold at_int.
  by rewrite int_to_size_t_id, Nat2Z.id by by apply index_fits.
Qed.

Lemma loop_guard_inv k s :
  loop_inv v target k s →
  loop_guard s = bool_decide (k < length v)%nat.
Proof.
  intros (Hn & Hi & Hk & _). unfold loop_guard.
  rewrite Hn, Hi, int_to_size_t_id by by apply index_fits.
  case_bool_decide; [apply Z.ltb_lt | apply Z.ltb_ge]; lia.
Qed.

Lemma enter_inv : loop_inv v target 0 {| nums := v; seen := ∅; i := 0 |}.
Proof.
  unfold loop_inv. simpl. split_and!; try done; lia.
Qed.

(** One iteration from a frame that satisfies the invariant. *)
Lemma body_spec k s :
  loop_inv v target k s → (k < length v)%nat →
  (∃ p y, body target s = Halted s [Z.of_nat p; Z.of_nat k] ∧
          v !! k = Some y ∧
          latest_before v (Int.sub target y) k p ∧
          valid_pair v target p k) ∨
  (∃ s', body target s = test s' ∧ loop_inv v target (S k) s').
Proof.
  intros (Hn & Hi & Hk & Hsome & Hnone & Hpairs & Hsize) Hlt.
  destruct (lookup_lt_is_Some_2 v k Hlt) as [y Hy].
  assert (Hall : ∀ q x, v !! q = Some x → Int.is_int x).
  { intros q x Hq. destruct Hv as [Hints _].
    eapply Forall_lookup_1 in Hints; eauto. }
  unfold body. rewrite Hn, Hi, at_int_index, Hy by lia. simpl.
  destruct (seen s !! Int.sub target y) as [p0|] eqn:Hseen.
  - left. destruct (Hsome _ _ Hseen) as (q & -> & Hlatest).
    exists q, y. split_and!; try done.
    split; [apply Hlatest|].
    exists (Int.sub target y), y. split_and!; try done; [apply Hlatest|].
    apply int_sub_add_iff; [done | apply int_wrap_is_int | done].
  - right. eexists. split; [reflexivity|].
    pose proof (index_fits (S k) Hlt) as Hfit.
    unfold loop_inv. simpl. split_and!; try done.
    + rewrite int_add_exact; [lia|]. unfold Int.is_int, Int.INT_MIN. lia.
    + intros x p. rewrite lookup_insert. case_decide as Hx.
      * intros [= <-]. subst x. exists k. repeat split; [lia|done|]. lia.
      * intros Hp. destruct (Hsome _ _ Hp) as (q & -> & Hq & Hvq & Hlast).
        exists q. repeat split; [lia|done|].
        intros q' Hq'. destruct (decide (q' = k)) as [->|].
        -- rewrite Hy. congruence.
        -- apply Hlast. lia.
    + intros x. rewrite lookup_insert. case_decide as Hx; [done|].
      intros Hx' q Hq. destruct (decide (q = k)) as [->|].
      * rewrite Hy. congruence.
      * apply Hnone; [done|lia].
    + intros a b Hb. destruct (decide (b = k)) as [->|]; [|apply Hpairs; lia].
      intros (Hab & xa & xb & Ha & Hb' & Hsum).
      rewrite Hy in Hb'. injection Hb' as <-.
      apply int_sub_add_iff in Hsum; eauto.
      rewrite Hsum in Hseen. by eapply Hnone.
    + rewrite map_size_insert. destruct (seen s !! y); simpl; lia.
Qed.

Lemma run_S_r k st :
  run (S k) target st = iteration target (run k target st).
Proof.
  revert st. induction k as [|k IH]; intros st; [done|].
  change (run (S (S k)) target st) with (run (S k) target (iteration target st)).
  by rewrite IH.
Qed.

Lemma run_halted k s r : run k target (Halted s r) = Halted s r.
Proof. induction k; simpl; auto. Qed.

Lemma run_app a b st :
  run (a + b) target st = run b target (run a target st).
Proof. revert st. induction a as [|a IH]; intros st; simpl; auto. Qed.

(** Once the loop has halted, more iterations change nothing. *)
Lemma run_halted_le k k' st s r :
  run k target st = Halted s r → (k ≤ k')%nat →
  run k' target st = Halted s r.
Proof.
  intros Hk Hle. replace k' with (k + (k' - k))%nat by lia.
  by rewrite run_app, Hk, run_halted.
Qed.

(** The execution from the head of iteration [m], by induction on the
    number [d] of elements that remain. *)
Lemma exec_from d : ∀ m s,
  (m + d = length v)%nat →
  loop_inv v target m s →
  run m target (enter v) = test s →
  (∀ m', (m' < m)%nat →
     ∃ s', run m' target (enter v) = Running s' ∧ loop_inv v target m' s') →
  ∃ k s' r,
    (k ≤ length v)%nat ∧
    run k target (enter v) = Halted s' r ∧
    nums s' = v ∧
    (size (seen s') ≤ k)%nat ∧
    result_spec v target r ∧
    ∀ m', (m' < k)%nat →
      ∃ s'', run m' target (enter v) = Running s'' ∧
             loop_inv v target m' s''.
Proof.
  induction d as [|d IH]; intros m s Hm Hinv Hrun Htrace.
  - exists m, s, []. unfold test in Hrun.
    rewrite (loop_guard_inv _ _ Hinv), bool_decide_eq_false_2 in Hrun by lia.
    split_and!; [lia | done | apply Hinv | apply Hinv | | done].
    left. split; [done|]. intros a b Hab.
    destruct Hinv as (_ & _ & _ & _ & _ & Hpairs & _).
    apply (Hpairs a b); [|done].
    destruct Hab as (_ & x & y & _ & Hb & _).
    apply lookup_lt_Some in Hb. lia.
  - unfold test in Hrun.
    rewrite (loop_guard_inv _ _ Hinv), bool_decide_eq_true_2 in Hrun by lia.
    assert (Htrace' : ∀ m', (m' < S m)%nat →
              ∃ s', run m' target (enter v) = Running s' ∧
                    loop_inv v target m' s').
    { intros m' Hm'. destruct (decide (m' = m)) as [->|]; [eauto|].
      apply Htrace. lia. }
    destruct (body_spec m s Hinv ltac:(lia))
      as [(p & y & Hbody & Hy & Hlatest & Hvalid)|(s' & Hbody & Hinv')].
    + exists (S m), s, [Z.of_nat p; Z.of_nat m].
      split_and!; [lia | | apply Hinv | | | done].
      { by rewrite run_S_r, Hrun. }
      { destruct Hinv as (_ & _ & _ & _ & _ & _ & Hsize). lia. }
      right. exists p, m, y. split_and!; try done.
      intros a b Hab. destruct (decide (m ≤ b)%nat); [done|].
      destruct Hinv as (_ & _ & _ & _ & _ & Hpairs & _).
      destruct (Hpairs a b); [lia|done].
    + apply (IH (S m) s'); [lia | done | | done].
      by rewrite run_S_r, Hrun.
Qed.

(** The call halts within [length v] iterations, in a frame whose [nums]
    is the caller's vector and with a result that meets [result_spec];
    before that, every iteration starts in a frame that satisfies the
    invariant. *)
Lemma exec_spec :
  ∃ k s' r,
    (k ≤ length v)%nat ∧
    run k target (enter v) = Halted s' r ∧
    nums s' = v ∧
    (size (seen s') ≤ k)%nat ∧
    result_spec v target r ∧
    ∀ m, (m < k)%nat →
      ∃ s, run m target (enter v) = Running s ∧ loop_inv v target m s.
Proof.
  apply (exec_from (length v) 0%nat {| nums := v; seen := ∅; i := 0 |});
    [done | apply enter_inv | done | lia].
Qed.

Lemma twoSum_spec :
  ∃ r, twoSum v target = Some r ∧ result_spec v target r.
Proof.
  destruct exec_spec as (k & s' & r & Hk & Hrun & _ & _ & Hspec & _).
  exists r. split; [|done]. unfold twoSum, twoSum_exec.
  by rewrite (run_halted_le _ _ _ _ _ Hrun Hk).
Qed.

(** Whenever an iteration starts, it starts under the invariant. *)
Lemma running_inv m s :
  run m target (enter v) = Running s → loop_inv v target m s.
Proof.
  intros Hm.
  destruct exec_spec as (k & s' & r & Hk & Hrun & _ & _ & _ & Htrace).
  destruct (decide (m < k)%nat) as [Hlt|Hge].
  - destruct (Htrace m Hlt) as (s0 & Hs0 & Hinv). congruence.
  - assert (Hle : (k ≤ m)%nat) by lia.
    by rewrite (run_halted_le _ _ _ _ _ Hrun Hle) in Hm.
Qed.

End loop.

(** ** Properties of [twoSum] *)

Lemma has_pair_valid v target :
  has_pair v target ↔ ∃ a b, valid_pair v target a b.
Proof.
  split.
  - intros (a & b & Hne & x & y & Ha & Hb & Hsum).
    destruct (decide (a < b)%nat).
    + exists a, b. split; [done|]. by exists x, y.
    + exists b, a. split; [lia|]. exists y, x. by rewrite int_add_comm.
  - intros (a & b & Hlt & Hsum). exists a, b. split; [lia|done].
Qed.

(** Where the mathematical sum of the two values is an [int], summing to
    the target is meant exactly. *)
Lemma sums_to_exact v target a b x y :
  v !! a = Some x → v !! b = Some y → Int.is_int (x + y) →
  sums_to v target a b ↔ x + y = target.
Proof.
  intros Ha Hb Hfit. split.
  - intros (x' & y' & Ha' & Hb' & Hsum). simplify_eq.
    by rewrite int_add_exact.
  - intros <-. exists x, y. by rewrite int_add_exact.
Qed.

Lemma latest_before_unique v x k q q' :
  latest_before v x k q → latest_before v x k q' → q = q'.
Proof.
  intros (Hq & Hvq & Hlast) (Hq' & Hvq' & Hlast').
  destruct (decide (q < q')%nat); [by destruct (Hlast q')|].
  destruct (decide (q' < q)%nat); [by destruct (Hlast' q)|]. lia.
Qed.

(** The frame's [nums] is never written, whatever the input. *)
Lemma nums_unchanged v target k :
  match run k target (enter v) with
  | Running s | Halted s _ => nums s = v
  | Undefined => True
  end.
Proof.
  induction k as [|k IH].
  - simpl. unfold enter, test. by destruct (loop_guard _).
  - rewrite run_S_r. destruct (run k target (enter v)) as [s|s r|]; simpl; auto.
    unfold body. destruct (at_int _ _); [|done].
    destruct (seen s !! _); [done|].
    unfold test. by destruct (loop_guard _).
Qed.

Lemma twoSum_found v target :
  int_vector v → Int.is_int target → has_pair v target →
  ∃ p j : Z, twoSum v target = Some [p; j].
Proof.
  intros Hv Ht Hpair.
  destruct (twoSum_spec v target Hv Ht) as (r & Hr & [[_ Hno]|Hfound]).
  - apply has_pair_valid in Hpair as (a & b & Hab). by destruct (Hno a b).
  - destruct Hfound as (p & j & y & -> & _). eauto.
Qed.

Lemma twoSum_not_found v target :
  int_vector v → Int.is_int target → ¬ has_pair v target →
  twoSum v target = Some [].
Proof.
  intros Hv Ht Hno.
  destruct (twoSum_spec v target Hv Ht) as (r & Hr & [[-> _]|Hfound]); [done|].
  destruct Hfound as (p & j & y & _ & _ & _ & Hvalid & _).
  destruct Hno. apply has_pair_valid. eauto.
Qed.

(** C1: for every vector of [int]s and every [int] target such that two
    distinct positions hold values that sum to the target, [twoSum] returns
    a vector of two indices [p], [j] with [p < j] whose values sum to the
    target (in [int] arithmetic, hence exactly whenever the mathematical sum
    is an [int]). *)
Theorem twoSum_returns_valid_pair (v : list Z) (target : Z) :
  int_vector v → Int.is_int target → has_pair v target →
  ∃ (p j : nat) (x y : Z),
    twoSum v target = Some [Z.of_nat p; Z.of_nat j] ∧
    (p < j)%nat ∧ v !! p = Some x ∧ v !! j = Some y ∧
    Int.add x y = target ∧
    (Int.is_int (x + y) → x + y = target).
Proof.
  intros Hv Ht Hpair.
  destruct (twoSum_spec v target Hv Ht) as (r & Hr & [[_ Hno]|Hfound]).
  - apply has_pair_valid in Hpair as (a & b & Hab). by destruct (Hno a b).
  - destruct Hfound as (p & j & y & -> & Hy & _ & (Hlt & x & y' & Hx & Hy' & Hsum) & _).
    exists p, j, x, y'. split_and!; try done.
    intros Hfit. by rewrite <- (int_add_exact _ _ Hfit).
Qed.

(** C2: under the same precondition, the second returned index is the
    smallest second index of any valid pair: the returned pair is valid and
    whenever two distinct positions sum to the target, the larger of the two
    is at least [j]. *)
Theorem twoSum_second_index_minimal (v : list Z) (target : Z) :
  int_vector v → Int.is_int target → has_pair v target →
  ∃ p j : nat,
    twoSum v target = Some [Z.of_nat p; Z.of_nat j] ∧
    valid_pair v target p j ∧
    (∀ a b, valid_pair v target a b → (j ≤ b)%nat) ∧
    (∀ a b, a ≠ b → sums_to v target a b → (j ≤ Nat.max a b)%nat).
Proof.
  intros Hv Ht Hpair.
  destruct (twoSum_spec v target Hv Ht) as (r & Hr & [[_ Hno]|Hfound]).
  - apply has_pair_valid in Hpair as (a & b & Hab). by destruct (Hno a b).
  - destruct Hfound as (p & j & y & -> & _ & _ & Hvalid & Hmin).
    exists p, j. split_and!; try done.
    intros a b Hne (x & y' & Ha & Hb & Hsum).
    destruct (decide (a < b)%nat).
    + rewrite Nat.max_r by lia. apply (Hmin a b). split; [done|]. by exists x, y'.
    + rewrite Nat.max_l by lia. apply (Hmin b a). split; [lia|].
      exists y', x. by rewrite int_add_comm.
Qed.

(** C4: [twoSum] returns the empty vector on the empty vector, whatever the
    target, and on every vector of [int]s in which no two distinct positions
    sum to the target. *)
Theorem twoSum_no_pair_empty :
  (∀ target, twoSum [] target = Some []) ∧
  (∀ v target,
     int_vector v → Int.is_int target → ¬ has_pair v target →
     twoSum v target = Some []).
Proof.
  split; [done|]. apply twoSum_not_found.
Qed.

(** C7: the call halts in a frame whose [nums] is the caller's vector, and
    every frame the loop goes through has that same [nums]: only the locals
    [seen] and [i] change. *)
Theorem twoSum_leaves_nums_unchanged (v : list Z) (target : Z) :
  int_vector v → Int.is_int target →
  (∃ s r, twoSum_exec v target = Halted s r ∧ nums s = v) ∧
  (∀ k s, run k target (enter v) = Running s → nums s = v) ∧
  (∀ k s r, run k target (enter v) = Halted s r → nums s = v).
Proof.
  intros Hv Ht. split_and!.
  - destruct (exec_spec v target Hv Ht) as (k & s & r & Hk & Hrun & Hn & _).
    exists s, r. split; [|done]. unfold twoSum_exec.
    by apply (run_halted_le target k).
  - intros k s Hk. pose proof (nums_unchanged v target k) as H. by rewrite Hk in H.
  - intros k s r Hk. pose proof (nums_unchanged v target k) as H. by rewrite Hk in H.
Qed.

(** C8: on [3, 3] with target 6 the result is (0, 1); and in general two
    returned indices are never the same index. *)
Theorem twoSum_3_3 :
  twoSum [3; 3] 6 = Some [0; 1] ∧
  (∀ v target p j,
     int_vector v → Int.is_int target →
     twoSum v target = Some [p; j] → p < j).
Proof.
  split; [done|]. intros v target p j Hv Ht Hr.
  destruct (twoSum_spec v target Hv Ht) as (r & Hr' & [[-> _]|Hfound]);
    [congruence|].
  destruct Hfound as (p' & j' & y & -> & _ & _ & (Hlt & _) & _).
  rewrite Hr in Hr'. injection Hr' as -> ->. lia.
Qed.

(** C9: the returned vector has length 0 or 2, and the entries of a vector
    of length 2 are indices into the input. *)
Theorem twoSum_result_shape (v : list Z) (target : Z) :
  int_vector v → Int.is_int target →
  ∃ r, twoSum v target = Some r ∧
       (length r = 0 ∨ length r = 2)%nat ∧
       (length r = 2%nat → Forall (λ z, 0 <= z < Z.of_nat (length v)) r).
Proof.
  intros Hv Ht.
  destruct (twoSum_spec v target Hv Ht) as (r & Hr & [[-> _]|Hfound]).
  - exists []. split_and!; [done | by left | done].
  - destruct Hfound as (p & j & y & -> & Hy & _ & (Hlt & _) & _).
    eexists. split_and!; [done | by right |]. intros _.
    apply lookup_lt_Some in Hy.
    repeat constructor; lia.
Qed.

(** C3, as stated, fails: in [1, 1, 5] with target 6 the complement of the
    last element is 1, which first occurs at index 0; but when the third
    iteration starts [seen] maps 1 to index 1, and the call returns (1, 2). *)
Lemma seen_earliest_counterexample :
  twoSum [1; 1; 5] 6 = Some [1; 2] ∧
  earliest_before [1; 1; 5] (Int.sub 6 5) 2 0 ∧
  (∃ s, run 2 6 (enter [1; 1; 5]) = Running s ∧ seen s !! 1 = Some 1) ∧
  ¬ (∀ v target p j y,
       int_vector v → Int.is_int target →
       twoSum v target = Some [Z.of_nat p; Z.of_nat j] →
       v !! j = Some y →
       earliest_before v (Int.sub target y) j p).
Proof.
  split_and!.
  - reflexivity.
  - split_and!; [lia | reflexivity | intros q' Hq'; lia].
  - eexists. split; reflexivity.
  - intros H.
    destruct (H [1; 1; 5] 6 1%nat 2%nat 5) as (_ & _ & Hfirst);
      [split; [repeat constructor; by vm_compute | by vm_compute]
      | by vm_compute | reflexivity | reflexivity |].
    by apply (Hfirst 0%nat); [lia|].
Qed.

(** C3, amended: whenever an iteration starts, [seen] maps exactly the
    values met so far, each to the latest index at which it occurred;
    consequently the first index of a returned pair is the latest index
    before the second at which the complement of the second value occurs. *)
Theorem seen_maps_to_latest_index (v : list Z) (target : Z) :
  int_vector v → Int.is_int target →
  (∀ m s, run m target (enter v) = Running s →
     ∀ x p, seen s !! x = Some p ↔
            ∃ q, p = Z.of_nat q ∧ latest_before v x m q) ∧
  (∀ p j, twoSum v target = Some [p; j] →
     ∃ (p' j' : nat) (y : Z),
       p = Z.of_nat p' ∧ j = Z.of_nat j' ∧ v !! j' = Some y ∧
       latest_before v (Int.sub target y) j' p').
Proof.
  intros Hv Ht. split.
  - intros m s Hrun x p.
    destruct (running_inv v target Hv Ht m s Hrun)
      as (_ & _ & _ & Hsome & Hnone & _).
    split; [apply Hsome|]. intros (q & -> & Hq).
    destruct (seen s !! x) as [p0|] eqn:Hx.
    + destruct (Hsome _ _ Hx) as (q0 & -> & Hq0).
      by rewrite (latest_before_unique _ _ _ _ _ Hq Hq0).
    + destruct Hq as (Hlt & Hvq & _). by destruct (Hnone x Hx q).
  - intros p j Hr.
    destruct (twoSum_spec v target Hv Ht) as (r & Hr' & [[-> _]|Hfound]);
      [congruence|].
    destruct Hfound as (p' & j' & y & -> & Hy & Hlatest & _).
    rewrite Hr in Hr'. injection Hr' as -> ->. by exists p', j', y.
Qed.

Lemma cost_linear target k st : (cost k target st ≤ 5 * k)%nat.
Proof.
  revert st. induction k as [|k IH]; intros st; simpl; [lia|].
  destruct st as [s| |]; try lia.
  specialize (IH (body target s)). unfold accesses.
  destruct (at_int _ _); [destruct (seen s !! _)|]; lia.
Qed.

(** C10: the loop halts after some [k] iterations, [k] at most the length
    [n] of the vector, with at most [n] entries in [seen]; iteration number
    [m] starts with [i = m], examines the element at position [m] and no
    other, and finds at most [m] entries in [seen]; the container operations
    of the call number at most five per element plus one. *)
Theorem twoSum_single_pass (v : list Z) (target : Z) :
  int_vector v → Int.is_int target →
  ∃ k : nat,
    (k ≤ length v)%nat ∧
    (∃ s r, run k target (enter v) = Halted s r ∧
            (size (seen s) ≤ length v)%nat) ∧
    (∀ m, (m < k)%nat →
       ∃ s, run m target (enter v) = Running s ∧
            i s = Z.of_nat m ∧
            at_int (nums s) (i s) = v !! m ∧ is_Some (v !! m) ∧
            (size (seen s) ≤ m)%nat) ∧
    (twoSum_cost v target ≤ 5 * length v + 1)%nat.
Proof.
  intros Hv Ht.
  destruct (exec_spec v target Hv Ht)
    as (k & s' & r & Hk & Hrun & _ & Hsize' & _ & Htrace).
  exists k. split_and!; [done | exists s', r; split; [done|lia] | |].
  - intros m Hm. destruct (Htrace m Hm) as (s & Hs & Hn & Hi & Hle & _ & _ & _ & Hsize).
    exists s. split_and!; try done.
    + rewrite Hn, Hi. apply (at_int_index v Hv). lia.
    + apply lookup_lt_is_Some_2. lia.
  - unfold twoSum_cost. pose proof (cost_linear target (length v) (enter v)). lia.
Qed.

(** ** Properties of [main] *)

Lemma extract_int ts old t :
  Int.is_int t →
  extract (IStream (t :: ts) true) old = (IStream ts true, Some t).
Proof.
  intros Hint. unfold extract. simpl.
  by rewrite (proj2 (int_is_intb_spec t) Hint).
Qed.

(** The reading loop stores the next tokens, in order, in the positions it
    goes through. *)
Lemma read_nums_spec xs : ∀ filled pad rest,
  Forall Int.is_int xs → length pad = length xs →
  read_nums (length xs) (length filled) (IStream (xs ++ rest) true)
            (filled ++ pad)
  = (IStream rest true, filled ++ xs).
Proof.
  induction xs as [|x xs IH]; intros filled pad rest Hints Hlen.
  - destruct pad; [done|]. simpl in Hlen. lia.
  - destruct pad as [|z pad]; simpl in Hlen; [lia|].
    apply Forall_cons in Hints as [Hx Hxs].
    cbn [read_nums length app].
    rewrite (extract_int (xs ++ rest) _ x Hx).
    replace (<[length filled := x]> (filled ++ z :: pad))
      with ((filled ++ [x]) ++ pad).
    + replace (S (length filled)) with (length (filled ++ [x]))
        by (rewrite length_app; simpl; lia).
      rewrite (IH (filled ++ [x]) pad rest Hxs ltac:(lia)).
      by rewrite <- app_assoc.
    + rewrite <- app_assoc, insert_app_r_alt, Nat.sub_diag by lia. done.
Qed.

(** On an input made of the size, the elements and the target, [main]
    calls [twoSum] on these and prints the first two entries of its
    result. *)
Lemma main_spec v target rest :
  int_vector v → Int.is_int target →
  main (Z.of_nat (length v) :: v ++ target :: rest) =
  match twoSum v target with
  | None => UndefinedBehaviour
  | Some result =>
      match result !! 0%nat, result !! 1%nat with
      | Some r0, Some r1 =>
          Printed ("[" +:+ show_int r0 +:+ "," +:+ show_int r1 +:+ "]")
      | _, _ => UndefinedBehaviour
      end
  end.
Proof.
  intros [Hints Hlen] Ht. unfold main.
  rewrite extract_int by (unfold Int.is_int, Int.INT_MIN; lia).
  replace (Z.of_nat (length v) <? 0) with false by (symmetry; apply Z.ltb_ge; lia).
  rewrite Nat2Z.id.
  pose proof (read_nums_spec v [] (replicate (length v) 0) (target :: rest)
                Hints (length_replicate _ _)) as Hread.
  simpl in Hread. rewrite Hread.
  by rewrite extract_int.
Qed.

Lemma no_space_app s1 s2 :
  no_space (s1 +:+ s2) = no_space s1 && no_space s2.
Proof.
  induction s1 as [|c s1 IH]; simpl; [done|].
  by rewrite IH, andb_assoc.
Qed.

Lemma no_space_uint d :
  no_space (DecimalString.NilEmpty.string_of_uint d) = true.
Proof. induction d; simpl; auto. Qed.

(** A printed [int] holds a sign and digits only. *)
Lemma no_space_show_int k : no_space (show_int k) = true.
Proof.
  unfold show_int. destruct (Z.to_int k) as [d|d]; simpl;
    destruct d; simpl; auto using no_space_uint.
Qed.

(** Digits after a number that is not zero. *)
Lemma digits_value_uint d : ∀ acc,
  digits_value (Z.pos acc) (DecimalString.NilEmpty.string_of_uint d)
  = Some (Z.pos (Pos.of_uint_acc d acc)).
Proof.
  induction d as [|d IH|d IH|d IH|d IH|d IH|d IH|d IH|d IH|d IH|d IH];
    intros acc; [done|..];
    simpl; rewrite <- IH; f_equal; lia.
Qed.

Lemma unorm_D0 d d' : Decimal.unorm d = Decimal.D0 d' → d' = Decimal.Nil.
Proof.
  induction d; simpl; intros H; try discriminate; auto.
  by injection H.
Qed.

(** What [cout] writes for a non-negative [int] is its decimal numeral. *)
Lemma numeral_show_int k : 0 <= k → numeral_value (show_int k) = Some k.
Proof.
  intros Hk. destruct k as [|q|q]; [done| |lia].
  unfold show_int. simpl.
  pose proof (DecimalPos.Unsigned.of_to q) as Hof.
  pose proof (DecimalPos.Unsigned.to_uint_nonzero q) as Hnz.
  pose proof (DecimalPos.Unsigned.to_of (Pos.to_uint q)) as Hnorm.
  rewrite Hof in Hnorm. simpl in Hnorm.
  destruct (Pos.to_uint q) as [|d|d|d|d|d|d|d|d|d|d] eqn:Hd;
    [done | | simpl in Hof |- *;
              match goal with
              | |- digits_value ?a _ = _ =>
                  let a' := eval vm_compute in a in change a with a'
              end;
              rewrite digits_value_uint;
              by injection Hof as ->..].
  simpl in Hnorm. symmetry in Hnorm.
  apply unorm_D0 in Hnorm as ->. by destruct Hnz.
Qed.

(** C5: on the input [n], then the [n] elements, then the target (whatever
    follows is not read), when a valid pair exists the program writes
    exactly an opening bracket, the decimal numeral of the first index
    [twoSum] returns, a comma, the decimal numeral of the second index and
    a closing bracket; no white space or newline is written. *)
Theorem main_prints_pair (v : list Z) (target : Z) (rest : list Z) :
  int_vector v → Int.is_int target → has_pair v target →
  ∃ (p j : Z) (a b : string),
    twoSum v target = Some [p; j] ∧
    main (Z.of_nat (length v) :: v ++ target :: rest)
    = Printed ("[" +:+ a +:+ "," +:+ b +:+ "]") ∧
    numeral_value a = Some p ∧ numeral_value b = Some j ∧
    no_space ("[" +:+ a +:+ "," +:+ b +:+ "]") = true.
Proof.
  intros Hv Ht Hpair. rewrite main_spec by done.
  destruct (twoSum_spec v target Hv Ht) as (r & -> & [[_ Hno]|Hfound]).
  - apply has_pair_valid in Hpair as (a & b & Hab). by destruct (Hno a b).
  - destruct Hfound as (p & j & y & -> & _).
    exists (Z.of_nat p), (Z.of_nat j), (show_int (Z.of_nat p)),
           (show_int (Z.of_nat j)).
    split_and!; [done | done | apply numeral_show_int; lia
                | apply numeral_show_int; lia |].
    by rewrite !no_space_app, !no_space_show_int.
Qed.

(** C6: when a valid pair exists the returned vector has entries at
    positions 0 and 1 and [main] prints; when none exists the returned
    vector has no entry at either position and the behaviour of [main] is
    undefined. *)
Theorem main_result_access (v : list Z) (target : Z) (rest : list Z) :
  int_vector v → Int.is_int target →
  (has_pair v target →
     ∃ r, twoSum v target = Some r ∧
          is_Some (r !! 0%nat) ∧ is_Some (r !! 1%nat) ∧
          ∃ out, main (Z.of_nat (length v) :: v ++ target :: rest)
                 = Printed out) ∧
  (¬ has_pair v target →
     ∃ r, twoSum v target = Some r ∧
          r !! 0%nat = None ∧ r !! 1%nat = None ∧
          main (Z.of_nat (length v) :: v ++ target :: rest)
          = UndefinedBehaviour).
Proof.
  intros Hv Ht. split; intros Hpair.
  - destruct (twoSum_found v target Hv Ht Hpair) as (p & j & Hr).
    eexists. split; [exact Hr|]. split_and!; [by eexists | by eexists |].
    eexists. by rewrite main_spec, Hr.
  - pose proof (twoSum_not_found v target Hv Ht Hpair) as Hempty.
    exists []. split_and!; try done.
    by rewrite main_spec, Hempty.
Qed.

(** ** Instances on concrete inputs *)

Lemma twoSum_returns_valid_pair_witness :
  int_vector [2; 7; 11; 15] ∧ Int.is_int 9 ∧ has_pair [2; 7; 11; 15] 9 ∧
  ∃ (p j : nat) (x y : Z),
    twoSum [2; 7; 11; 15] 9 = Some [Z.of_nat p; Z.of_nat j] ∧
    (p < j)%nat ∧ [2; 7; 11; 15] !! p = Some x ∧
    [2; 7; 11; 15] !! j = Some y ∧
    Int.add x y = 9 ∧
    (Int.is_int (x + y) → x + y = 9).
Proof.
  assert (Hv : int_vector [2; 7; 11; 15]) by solve_int_vector.
  assert (Ht : Int.is_int 9) by solve_is_int.
  assert (Hp : has_pair [2; 7; 11; 15] 9) by solve_has_pair 0%nat 1%nat.
  split_and!; [exact Hv | exact Ht | exact Hp |].
  exact (twoSum_returns_valid_pair [2; 7; 11; 15] 9 Hv Ht Hp).
Defined.

Lemma twoSum_second_index_minimal_witness :
  int_vector [3; 2; 4; 4] ∧ Int.is_int 6 ∧ has_pair [3; 2; 4; 4] 6 ∧
  ∃ p j : nat,
    twoSum [3; 2; 4; 4] 6 = Some [Z.of_nat p; Z.of_nat j] ∧
    valid_pair [3; 2; 4; 4] 6 p j ∧
    (∀ a b, valid_pair [3; 2; 4; 4] 6 a b → (j ≤ b)%nat) ∧
    (∀ a b, a ≠ b → sums_to [3; 2; 4; 4] 6 a b → (j ≤ Nat.max a b)%nat).
Proof.
  assert (Hv : int_vector [3; 2; 4; 4]) by solve_int_vector.
  assert (Ht : Int.is_int 6) by solve_is_int.
  assert (Hp : has_pair [3; 2; 4; 4] 6) by solve_has_pair 1%nat 3%nat.
  split_and!; [exact Hv | exact Ht | exact Hp |].
  exact (twoSum_second_index_minimal [3; 2; 4; 4] 6 Hv Ht Hp).
Defined.

Lemma seen_maps_to_latest_index_witness :
  int_vector [1; 1; 5] ∧ Int.is_int 6 ∧
  (∀ m s, run m 6 (enter [1; 1; 5]) = Running s →
     ∀ x p, seen s !! x = Some p ↔
            ∃ q, p = Z.of_nat q ∧ latest_before [1; 1; 5] x m q) ∧
  (∀ p j, twoSum [1; 1; 5] 6 = Some [p; j] →
     ∃ (p' j' : nat) (y : Z),
       p = Z.of_nat p' ∧ j = Z.of_nat j' ∧ [1; 1; 5] !! j' = Some y ∧
       latest_before [1; 1; 5] (Int.sub 6 y) j' p').
Proof.
  assert (Hv : int_vector [1; 1; 5]) by solve_int_vector.
  assert (Ht : Int.is_int 6) by solve_is_int.
  split_and!; [exact Hv | exact Ht | |];
    apply (seen_maps_to_latest_index [1; 1; 5] 6 Hv Ht).
Defined.

Lemma twoSum_no_pair_empty_witness :
  twoSum [] 7 = Some [] ∧
  int_vector [1; 2; 3] ∧ Int.is_int 100 ∧ ¬ has_pair [1; 2; 3] 100 ∧
  twoSum [1; 2; 3] 100 = Some [].
Proof.
  assert (Hv : int_vector [1; 2; 3]) by solve_int_vector.
  assert (Ht : Int.is_int 100) by solve_is_int.
  assert (Hno : ¬ has_pair [1; 2; 3] 100) by solve_no_pair3.
  split_and!; [| exact Hv | exact Ht | exact Hno |].
  - exact (proj1 twoSum_no_pair_empty 7).
  - exact (proj2 twoSum_no_pair_empty [1; 2; 3] 100 Hv Ht Hno).
Defined.

Lemma main_prints_pair_witness :
  int_vector [2; 7; 11; 15] ∧ Int.is_int 9 ∧ has_pair [2; 7; 11; 15] 9 ∧
  main (Z.of_nat (length [2; 7; 11; 15]) :: [2; 7; 11; 15] ++ 9 :: [])
  = Printed "[0,1]" ∧
  ∃ (p j : Z) (a b : string),
    twoSum [2; 7; 11; 15] 9 = Some [p; j] ∧
    main (Z.of_nat (length [2; 7; 11; 15]) :: [2; 7; 11; 15] ++ 9 :: [])
    = Printed ("[" +:+ a +:+ "," +:+ b +:+ "]") ∧
    numeral_value a = Some p ∧ numeral_value b = Some j ∧
    no_space ("[" +:+ a +:+ "," +:+ b +:+ "]") = true.
Proof.
  assert (Hv : int_vector [2; 7; 11; 15]) by solve_int_vector.
  assert (Ht : Int.is_int 9) by solve_is_int.
  assert (Hp : has_pair [2; 7; 11; 15] 9) by solve_has_pair 0%nat 1%nat.
  split_and!; [exact Hv | exact Ht | exact Hp | reflexivity |].
  exact (main_prints_pair [2; 7; 11; 15] 9 [] Hv Ht Hp).
Defined.

Lemma main_result_access_witness :
  (int_vector [2; 7; 11; 15] ∧ Int.is_int 9 ∧ has_pair [2; 7; 11; 15] 9 ∧
   ∃ r, twoSum [2; 7; 11; 15] 9 = Some r ∧
        is_Some (r !! 0%nat) ∧ is_Some (r !! 1%nat) ∧
        ∃ out, main (Z.of_nat (length [2; 7; 11; 15])
                       :: [2; 7; 11; 15] ++ 9 :: [])
               = Printed out) ∧
  (int_vector [1; 2; 3] ∧ Int.is_int 100 ∧ ¬ has_pair [1; 2; 3] 100 ∧
   ∃ r, twoSum [1; 2; 3] 100 = Some r ∧
        r !! 0%nat = None ∧ r !! 1%nat = None ∧
        main (Z.of_nat (length [1; 2; 3]) :: [1; 2; 3] ++ 100 :: [])
        = UndefinedBehaviour).
Proof.
  assert (Hv : int_vector [2; 7; 11; 15]) by solve_int_vector.
  assert (Ht : Int.is_int 9) by solve_is_int.
  assert (Hp : has_pair [2; 7; 11; 15] 9) by solve_has_pair 0%nat 1%nat.
  assert (Hv' : int_vector [1; 2; 3]) by solve_int_vector.
  assert (Ht' : Int.is_int 100) by solve_is_int.
  assert (Hno : ¬ has_pair [1; 2; 3] 100) by solve_no_pair3.
  split; split_and!; try done.
  - exact (proj1 (main_result_access [2; 7; 11; 15] 9 [] Hv Ht) Hp).
  - exact (proj2 (main_result_access [1; 2; 3] 100 [] Hv' Ht') Hno).
Defined.

Lemma twoSum_leaves_nums_unchanged_witness :
  int_vector [2; 7; 11; 15] ∧ Int.is_int 9 ∧
  (∃ s r, twoSum_exec [2; 7; 11; 15] 9 = Halted s r ∧
          nums s = [2; 7; 11; 15]) ∧
  (∀ k s, run k 9 (enter [2; 7; 11; 15]) = Running s →
          nums s = [2; 7; 11; 15]) ∧
  (∀ k s r, run k 9 (enter [2; 7; 11; 15]) = Halted s r →
            nums s = [2; 7; 11; 15]).
Proof.
  assert (Hv : int_vector [2; 7; 11; 15]) by solve_int_vector.
  assert (Ht : Int.is_int 9) by solve_is_int.
  split_and!; [exact Hv | exact Ht | | |];
    apply (twoSum_leaves_nums_unchanged [2; 7; 11; 15] 9 Hv Ht).
Defined.

Lemma twoSum_3_3_witness :
  int_vector [3; 3] ∧ Int.is_int 6 ∧
  twoSum [3; 3] 6 = Some [0; 1] ∧ 0 < 1.
Proof.
  assert (Hv : int_vector [3; 3]) by solve_int_vector.
  assert (Ht : Int.is_int 6) by solve_is_int.
  split_and!; [exact Hv | exact Ht | exact (proj1 twoSum_3_3) |].
  exact (proj2 twoSum_3_3 [3; 3] 6 0 1 Hv Ht (proj1 twoSum_3_3)).
Defined.

Lemma twoSum_result_shape_witness :
  int_vector [2; 7; 11; 15] ∧ Int.is_int 9 ∧
  ∃ r, twoSum [2; 7; 11; 15] 9 = Some r ∧
       (length r = 0 ∨ length r = 2)%nat ∧
       (length r = 2%nat →
        Forall (λ z, 0 <= z < Z.of_nat (length [2; 7; 11; 15])) r).
Proof.
  assert (Hv : int_vector [2; 7; 11; 15]) by solve_int_vector.
  assert (Ht : Int.is_int 9) by solve_is_int.
  split_and!; [exact Hv | exact Ht |].
  exact (twoSum_result_shape [2; 7; 11; 15] 9 Hv Ht).
Defined.

Lemma twoSum_single_pass_witness :
  int_vector [1; 2; 3] ∧ Int.is_int 100 ∧
  ∃ k : nat,
    (k ≤ length [1; 2; 3]%Z)%nat ∧
    (∃ s r, run k 100 (enter [1; 2; 3]) = Halted s r ∧
            (size (seen s) ≤ length [1; 2; 3]%Z)%nat) ∧
    (∀ m, (m < k)%nat →
       ∃ s, run m 100 (enter [1; 2; 3]) = Running s ∧
            i s = Z.of_nat m ∧
            at_int (nums s) (i s) = [1; 2; 3] !! m ∧
            is_Some ([1; 2; 3] !! m) ∧
            (size (seen s) ≤ m)%nat) ∧
    (twoSum_cost [1; 2; 3]%Z 100%Z ≤ 5 * length [1; 2; 3]%Z + 1)%nat.
Proof.
  assert (Hv : int_vector [1; 2; 3]) by solve_int_vector.
  assert (Ht : Int.is_int 100) by solve_is_int.
  split_and!; [exact Hv | exact Ht |].
  exact (twoSum_single_pass [1; 2; 3] 100 Hv Ht).
Defined.

(** ** Further properties of [twoSum] *)

(** In a vector of [int]s, the first index of a valid pair with second
    index [j] holds the complement of the value at [j]. *)
Lemma valid_pair_complement v target a j y :
  int_vector v → Int.is_int target → v !! j = Some y →
  valid_pair v target a j ↔
  (a < j)%nat ∧ v !! a = Some (Int.sub target y).
Proof.
  intros [Hints _] Ht Hy. split.
  - intros (Hlt & x & y' & Ha & Hy' & Hsum). split; [done|].
    rewrite Hy in Hy'. injection Hy' as <-.
    apply int_sub_add_iff in Hsum; [by rewrite Hsum | done |].
    eapply Forall_lookup_1 in Hints; eauto.
  - intros (Hlt & Ha). split; [done|].
    exists (Int.sub target y), y. split_and!; try done.
    apply int_sub_add_iff; [done | apply int_wrap_is_int | done].
Qed.

(** The result determines, and is determined by, the valid pair with the
    smallest second index and, for that second index, the largest first
    index. *)
Lemma result_pair_iff v target p j :
  int_vector v → Int.is_int target →
  twoSum v target = Some [Z.of_nat p; Z.of_nat j] ↔
  valid_pair v target p j ∧
  (∀ a b, valid_pair v target a b → (j ≤ b)%nat) ∧
  (∀ a, valid_pair v target a j → (a ≤ p)%nat).
Proof.
  intros Hv Ht.
  destruct (twoSum_spec v target Hv Ht) as (r & Hr & Hspec). rewrite Hr.
  split.
  - intros [= ->]. destruct Hspec as [[? _]|Hfound]; [done|].
    destruct Hfound as (p' & j' & y & [= Hp Hj] & Hy & Hlatest & Hvalid & Hmin).
    apply Nat2Z.inj in Hp, Hj. subst p' j'. split_and!; try done.
    intros a Ha. apply (valid_pair_complement v target a j y Hv Ht Hy) in Ha.
    destruct Ha as [Haj Ha], Hlatest as (_ & _ & Hlast).
    destruct (decide (a ≤ p)%nat); [done|]. destruct (Hlast a); [lia|done].
  - intros (Hvalid & Hmin & Hmax).
    destruct Hspec as [[_ Hno]|Hfound]; [by destruct (Hno p j)|].
    destruct Hfound as (p' & j' & y & -> & Hy & Hlatest & Hvalid' & Hmin').
    assert (j' = j) as ->.
    { apply Nat.le_antisymm; [by apply (Hmin' p j) | by apply (Hmin p' j')]. }
    assert (p' = p) as ->; [|done].
    apply Nat.le_antisymm; [by apply Hmax|].
    apply (valid_pair_complement v target p j y Hv Ht Hy) in Hvalid.
    destruct Hvalid as [Hpj Hp], Hlatest as (_ & _ & Hlast).
    destruct (decide (p ≤ p')%nat); [done|]. destruct (Hlast p); [lia|done].
Qed.

(** X1: the call returns ([p], [j]) exactly when ([p], [j]) is a valid pair,
    no valid pair has a smaller second index, and no valid pair with second
    index [j] has a larger first index. *)
Theorem twoSum_pair_iff (v : list Z) (target : Z) (p j : nat) :
  int_vector v → Int.is_int target →
  twoSum v target = Some [Z.of_nat p; Z.of_nat j] ↔
  valid_pair v target p j ∧
  (∀ a b, valid_pair v target a b → (j ≤ b)%nat) ∧
  (∀ a, valid_pair v target a j → (a ≤ p)%nat).
Proof. apply result_pair_iff. Qed.

Lemma valid_pair_take v v' target k a b :
  take k v' = take k v → (b < k)%nat →
  valid_pair v' target a b ↔ valid_pair v target a b.
Proof.
  intros Htake Hb. unfold valid_pair, sums_to.
  assert (Hlook : ∀ q, (q < k)%nat → v' !! q = v !! q).
  { intros q Hq. by rewrite <- (lookup_take_lt v' k q), Htake, lookup_take_lt. }
  split; intros (Hab & x & y & Ha & Hb' & Hsum);
    (split; [done|]); exists x, y.
  - by rewrite <- !Hlook by lia.
  - by rewrite !Hlook by lia.
Qed.

(** X2: the elements after the second returned index play no part: any
    vector of [int]s that agrees with [v] up to and including position [j]
    gives the same result. *)
Theorem twoSum_ignores_tail (v v' : list Z) (target : Z) (p j : nat) :
  int_vector v → int_vector v' → Int.is_int target →
  twoSum v target = Some [Z.of_nat p; Z.of_nat j] →
  take (S j) v' = take (S j) v →
  twoSum v' target = Some [Z.of_nat p; Z.of_nat j].
Proof.
  intros Hv Hv' Ht Hr Htake.
  apply (result_pair_iff v target p j Hv Ht) in Hr as (Hvalid & Hmin & Hmax).
  apply (result_pair_iff v' target p j Hv' Ht). split_and!.
  - by apply (valid_pair_take v v' target (S j)); [|lia|].
  - intros a b Hab. destruct (decide (j ≤ b)%nat); [done|].
    apply (Hmin a). by apply (valid_pair_take v v' target (S j)); [|lia|].
  - intros a Ha. apply Hmax.
    by apply (valid_pair_take v v' target (S j)); [|lia|].
Qed.

(** X3: a vector with fewer than two elements gives the empty result,
    whatever its element and the target are. *)
Theorem twoSum_short_vector (v : list Z) (target : Z) :
  (length v ≤ 1)%nat → twoSum v target = Some [].
Proof.
  intros Hlen. destruct v as [|x [|y v]]; [done| |simpl in Hlen; lia].
  unfold twoSum, twoSum_exec, enter, test. simpl.
  unfold body, at_int. simpl. by rewrite lookup_empty.
Qed.

(** The loop only ever starts an iteration under a loop test that holds. *)
Lemma run_guarded v target k :
  match run k target (enter v) with
  | Running s => loop_guard s = true
  | Halted _ _ => True
  | Undefined => False
  end.
Proof.
  induction k as [|k IH].
  - simpl. unfold enter, test. by destruct (loop_guard _) eqn:Hg.
  - rewrite run_S_r.
    destruct (run k target (enter v)) as [s|s r|]; simpl; [|done..].
    unfold body, at_int.
    unfold loop_guard in IH. apply Z.ltb_lt in IH.
    destruct (lookup_lt_is_Some_2 (nums s) (Z.to_nat (Int.to_size_t (i s))))
      as [x ->].
    { unfold Int.to_size_t in *.
      pose proof (Z.mod_pos_bound (i s) (2 ^ 64) ltac:(lia)). lia. }
    destruct (seen s !! _); [done|].
    unfold test. by destruct (loop_guard _) eqn:Hg.
Qed.

(** X4: on a vector of [int]s whose size fits an [int], with a target
    from which every element can be subtracted without overflow, no
    operation of the loop is undefined: each iteration that starts reads
    [nums[i]] with [0 <= i < nums.size()], its subtraction does not
    overflow and neither does its [i++]. *)
Theorem twoSum_never_out_of_bounds (v : list Z) (target : Z) (k : nat) :
  int_vector v → Int.is_int target →
  Forall (λ x, Int.is_int (target - x)) v →
  run k target (enter v) ≠ Undefined ∧
  (∀ s, run k target (enter v) = Running s →
     ∃ x, 0 <= i s < Z.of_nat (length (nums s)) ∧
          nums s !! Z.to_nat (i s) = Some x ∧
          at_int (nums s) (i s) = Some x ∧
          Int.is_int (target - x) ∧ Int.sub target x = target - x ∧
          Int.is_int (i s + 1) ∧ Int.add (i s) 1 = i s + 1).
Proof.
  intros Hv Ht Hsub.
  pose proof (run_guarded v target k) as Hg. split.
  - by destruct (run k target (enter v)).
  - intros s Hs. rewrite Hs in Hg.
    pose proof (running_inv v target Hv Ht k s Hs) as Hinv.
    rewrite (loop_guard_inv v target Hv _ _ Hinv) in Hg.
    apply bool_decide_eq_true in Hg.
    destruct Hinv as (Hn & Hi & _).
    destruct (lookup_lt_is_Some_2 v k Hg) as [x Hx].
    pose proof (index_fits v Hv (S k) Hg) as Hfit.
    assert (Hfitx : Int.is_int (target - x))
      by (eapply Forall_lookup_1 in Hsub; eauto).
    assert (Hfiti : Int.is_int (i s + 1))
      by (rewrite Hi; unfold Int.is_int, Int.INT_MIN; lia).
    exists x. rewrite Hn, Hi.
    split_and!; [lia | lia | | | done | | by rewrite <- Hi | ].
    + by rewrite Nat2Z.id.
    + rewrite at_int_index; [done | done | lia].
    + by apply int_sub_exact.
    + rewrite <- Hi. by apply int_add_exact.
Qed.

(** How the call halts: either the loop test fails after all the elements,
    with no result, or the iteration at position [j] finds the complement
    of [v[j]] in [seen]. *)
Lemma exec_steps v target :
  int_vector v → Int.is_int target →
  ∃ k s r,
    run k target (enter v) = Halted s r ∧
    (∀ m, (m < k)%nat →
       ∃ s', run m target (enter v) = Running s' ∧ loop_inv v target m s') ∧
    result_spec v target r ∧
    ((r = [] ∧ k = length v ∧ loop_inv v target k s) ∨
     (∃ p j, r = [Z.of_nat p; Z.of_nat j] ∧ k = S j ∧ (j < length v)%nat ∧
             loop_inv v target j s)).
Proof.
  intros Hv Ht.
  destruct (exec_spec v target Hv Ht)
    as (k & s & r & Hk & Hrun & _ & _ & Hspec & Htrace).
  exists k, s, r. split_and!; try done.
  destruct k as [|k].
  - simpl in Hrun. unfold enter, test in Hrun.
    pose proof (enter_inv v target) as Hinv.
    rewrite (loop_guard_inv v target Hv _ _ Hinv) in Hrun.
    case_bool_decide as Hlen; [done|]. injection Hrun as <- <-.
    left. split_and!; [done | lia | done].
  - destruct (Htrace k ltac:(lia)) as (s0 & Hs0 & Hinv).
    rewrite run_S_r, Hs0 in Hrun. simpl in Hrun.
    destruct (body_spec v target Hv Ht k s0 Hinv ltac:(lia))
      as [(p & y & Hbody & _)|(s' & Hbody & Hinv')];
      rewrite Hbody in Hrun.
    + injection Hrun as <- <-. right. exists p, k. split_and!; [done..|lia|done].
    + unfold test in Hrun.
      rewrite (loop_guard_inv v target Hv _ _ Hinv') in Hrun.
      case_bool_decide as Hlen; [done|]. injection Hrun as <- <-.
      left. split_and!; [done | lia | done].
Qed.

(** X5: when an iteration starts, the keys of [seen] are exactly the
    values of the elements examined so far. *)
Theorem seen_keys (v : list Z) (target : Z) (m : nat) (s : frame) :
  int_vector v → Int.is_int target →
  run m target (enter v) = Running s →
  dom (seen s) = list_to_set (take m v).
Proof.
  intros Hv Ht Hrun.
  destruct (running_inv v target Hv Ht m s Hrun)
    as (_ & _ & _ & Hsome & Hnone & _).
  apply set_eq. intros x.
  rewrite elem_of_dom, elem_of_list_to_set, elem_of_take. split.
  - intros [p Hp]. destruct (Hsome _ _ Hp) as (q & _ & Hq & Hvq & _). eauto.
  - intros (q & Hvq & Hq). destruct (seen s !! x) eqn:Hx; [done|].
    by destruct (Hnone x Hx q).
Qed.

(** X6: iteration number [m] is started exactly when the vector has an
    element at position [m] and no valid pair has its second index below
    [m]. *)
Theorem iteration_reached_iff (v : list Z) (target : Z) (m : nat) :
  int_vector v → Int.is_int target →
  (∃ s, run m target (enter v) = Running s) ↔
  (m < length v)%nat ∧ ∀ a b, (b < m)%nat → ¬ valid_pair v target a b.
Proof.
  intros Hv Ht. split.
  - intros (s & Hrun).
    pose proof (running_inv v target Hv Ht m s Hrun) as Hinv.
    pose proof (run_guarded v target m) as Hg. rewrite Hrun in Hg.
    rewrite (loop_guard_inv v target Hv _ _ Hinv) in Hg.
    apply bool_decide_eq_true in Hg.
    split; [done|]. apply Hinv.
  - intros [Hlt Hno].
    destruct (exec_steps v target Hv Ht)
      as (k & s & r & Hrun & Htrace & Hspec & Hhalt).
    destruct (decide (m < k)%nat) as [Hmk|Hmk].
    { destruct (Htrace m Hmk) as (s' & Hs' & _). eauto. }
    destruct Hhalt as [(_ & -> & _)|(p & j & -> & -> & Hj & _)]; [lia|].
    destruct Hspec as [[? _]|Hfound]; [done|].
    destruct Hfound as (p' & j' & y & [= _ Hjj] & _ & _ & Hvalid & _).
    apply Nat2Z.inj in Hjj. subst j'.
    destruct (Hno p' j); [lia|done].
Qed.

(** The operations of an iteration, read off what the iteration does. *)
Lemma accesses_by_body target s :
  match body target s with
  | Halted _ [_; _] => accesses target s = 3%nat
  | Undefined => accesses target s = 1%nat
  | _ => accesses target s = 5%nat
  end.
Proof.
  unfold body, accesses. destruct (at_int _ _); [|done].
  destruct (seen s !! _); [done|].
  unfold test. by destruct (loop_guard _).
Qed.

(** The operations from the head of iteration [m], with [d] elements
    left and enough iterations allowed. *)
Lemma cost_from v target d : ∀ m s fuel,
  int_vector v → Int.is_int target →
  (m + d = length v)%nat → loop_inv v target m s → (d ≤ fuel)%nat →
  ∃ s' r,
    run fuel target (test s) = Halted s' r ∧
    ((r = [] ∧ cost fuel target (test s) = (5 * d)%nat) ∨
     (∃ p j, r = [Z.of_nat p; Z.of_nat j] ∧ (m ≤ j)%nat ∧
             cost fuel target (test s) = (5 * (j - m) + 3)%nat)).
Proof.
  induction d as [|d IH]; intros m s fuel Hv Ht Hm Hinv Hfuel.
  - unfold test. rewrite (loop_guard_inv v target Hv _ _ Hinv).
    rewrite bool_decide_eq_false_2 by lia.
    exists s, []. split; [apply run_halted|]. left. split; [done|].
    by destruct fuel.
  - unfold test. rewrite (loop_guard_inv v target Hv _ _ Hinv).
    rewrite bool_decide_eq_true_2 by lia.
    destruct fuel as [|fuel]; [lia|]. cbn [run cost iteration].
    pose proof (accesses_by_body target s) as Hacc.
    destruct (body_spec v target Hv Ht m s Hinv ltac:(lia))
      as [(p & y & Hbody & _)|(s' & Hbody & Hinv')];
      rewrite Hbody in Hacc |- *.
    + exists s, [Z.of_nat p; Z.of_nat m]. split; [apply run_halted|].
      right. exists p, m. split_and!; [done | lia |].
      rewrite Hacc. destruct fuel; simpl; lia.
    + assert (Hacc' : accesses target s = 5%nat).
      { unfold test in Hacc. by destruct (loop_guard s'). }
      destruct (IH (S m) s' fuel Hv Ht ltac:(lia) Hinv' ltac:(lia))
        as (s'' & r & Hrun & Hcost).
      exists s'', r. split; [done|]. rewrite Hacc'.
      destruct Hcost as [[-> ->]|(p & j & -> & Hj & ->)].
      * left. split; [done|lia].
      * right. exists p, j. split_and!; [done | lia | lia].
Qed.

(** X7: the container operations of a call are exactly [5 n + 1] when the
    result is empty ([n] the size of the vector), and exactly [5 j + 4] when
    the second returned index is [j]. *)
Theorem twoSum_cost_exact (v : list Z) (target : Z) :
  int_vector v → Int.is_int target →
  (twoSum v target = Some [] →
   twoSum_cost v target = (5 * length v + 1)%nat) ∧
  (∀ p j : nat,
     twoSum v target = Some [Z.of_nat p; Z.of_nat j] →
     twoSum_cost v target = (5 * j + 4)%nat).
Proof.
  intros Hv Ht.
  destruct (cost_from v target (length v) 0%nat
              {| nums := v; seen := ∅; i := 0 |} (length v) Hv Ht
              ltac:(lia) (enter_inv v target) ltac:(lia))
    as (s' & r & Hrun & Hcost).
  fold (enter v) in Hrun, Hcost.
  unfold twoSum, twoSum_exec, twoSum_cost. rewrite Hrun.
  destruct Hcost as [[-> ->]|(p & j & -> & _ & ->)].
  - split; [lia|]. by intros p j.
  - split; [done|]. intros p' j' [= _ Hj]. apply Nat2Z.inj in Hj. lia.
Qed.

(** ** Further properties of [main] *)

(** An extraction from a stream that has failed changes nothing. *)
Lemma extract_failed ts old :
  extract (IStream ts false) old = (IStream ts false, old).
Proof. done. Qed.

Lemma read_nums_failed k : ∀ idx ts v,
  read_nums k idx (IStream ts false) v = (IStream ts false, v).
Proof.
  induction k as [|k IH]; intros idx ts v; [done|].
  cbn [read_nums]. rewrite extract_failed.
  destruct (v !! idx) as [x|] eqn:Hx; [|apply IH].
  rewrite list_insert_id by done. apply IH.
Qed.



(** With no more tokens than iterations, the stream the reading loop
    leaves cannot give the target. *)
Lemma read_nums_starved k : ∀ idx cin v cin' v',
  read_nums k idx cin v = (cin', v') →
  good cin = false ∨ (length (tokens cin) ≤ k)%nat →
  (extract cin' None).2 = None.
Proof.
  induction k as [|k IH]; intros idx cin v cin' v' Hread Hshort.
  - injection Hread as <- _. unfold extract.
    destruct (good cin); [|done].
    destruct (tokens cin); [done|]. simpl in Hshort. destruct Hshort; [done|lia].
  - cbn [read_nums] in Hread.
    destruct (extract cin (v !! idx)) as [cin1 x] eqn:Hex.
    apply IH in Hread; [done|].
    unfold extract in Hex. destruct (good cin) eqn:Hg.
    + destruct (tokens cin) as [|t ts] eqn:Hts.
      * injection Hex as <- _. by left.
      * right. simpl in Hshort.
        destruct (Int.is_intb t); injection Hex as <- _; simpl;
          destruct Hshort; (done || lia).
    + injection Hex as <- _. by left.
Qed.

(** X8: an input that ends before the target, that is a non-negative
    count [n] followed by at most [n] more tokens, makes the behaviour of
    the program undefined: [target] is used without having been given a
    value. *)
Theorem main_short_input_undefined (n : Z) (ts : list Z) :
  0 <= n → (length ts ≤ Z.to_nat n)%nat →
  main (n :: ts) = UndefinedBehaviour.
Proof.
  intros Hn Hlen. unfold main.
  destruct (extract (IStream (n :: ts) true) None) as [cin n'] eqn:Hex.
  assert (Hcin : cin = IStream ts (Int.is_intb n) ∧
                 ∃ n0, n' = Some n0 ∧ (Int.is_intb n = true → n0 = n) ∧
                       0 <= n0).
  { unfold extract in Hex. simpl in Hex.
    destruct (Int.is_intb n) eqn:Hint; injection Hex as <- <-;
      (split; [done|]); eexists; split_and!; try done.
    unfold clamp. replace (n <? Int.INT_MIN) with false; [by vm_compute|].
    symmetry. apply Z.ltb_ge. unfold Int.INT_MIN. lia. }
  destruct Hcin as (-> & n0 & -> & Hn0 & Hpos).
  replace (n0 <? 0) with false by (symmetry; apply Z.ltb_ge; lia).
  destruct (read_nums _ _ _ _) as [cin' v] eqn:Hread.
  apply read_nums_starved in Hread.
  - destruct (extract cin' None) as [cin'' target]. simpl in Hread. by subst.
  - simpl. destruct (Int.is_intb n); [|by left].
    right. by rewrite Hn0.
Qed.


(** X11: on the input [n], then the [n] elements, then the target, when a
    valid pair exists the program prints, between brackets and separated by
    a comma, the decimal numerals of two positions of the vector, the first
    below the second, whose values sum to the target, and no valid pair has
    a smaller second index. *)
Theorem main_prints_first_pair (v : list Z) (target : Z) (rest : list Z) :
  int_vector v → Int.is_int target → has_pair v target →
  ∃ (p j : nat) (x y : Z) (a b : string),
    main (Z.of_nat (length v) :: v ++ target :: rest)
    = Printed ("[" +:+ a +:+ "," +:+ b +:+ "]") ∧
    numeral_value a = Some (Z.of_nat p) ∧
    numeral_value b = Some (Z.of_nat j) ∧
    (p < j)%nat ∧ v !! p = Some x ∧ v !! j = Some y ∧
    Int.add x y = target ∧
    ∀ a' b', valid_pair v target a' b' → (j ≤ b')%nat.
Proof.
  intros Hv Ht Hpair. rewrite main_spec by done.
  destruct (twoSum_spec v target Hv Ht) as (r & -> & [[_ Hno]|Hfound]).
  - apply has_pair_valid in Hpair as (a & b & Hab). by destruct (Hno a b).
  - destruct Hfound
      as (p & j & y & -> & _ & _ & (Hlt & x & y' & Hx & Hy & Hsum) & Hmin).
    exists p, j, x, y', (show_int (Z.of_nat p)), (show_int (Z.of_nat j)).
    split_and!; try done; apply numeral_show_int; lia.
Qed.

(** X12: the program reads nothing after the target: what follows it in
    the input does not change the outcome, printed or undefined. *)
Theorem main_ignores_trailing_input (v : list Z) (target : Z) (rest : list Z) :
  int_vector v → Int.is_int target →
  main (Z.of_nat (length v) :: v ++ target :: rest) =
  main (Z.of_nat (length v) :: v ++ [target]).
Proof. intros Hv Ht. by rewrite !main_spec. Qed.

(** X13: when the input ends inside the sequence, the reading loop stores
    the values that are there, leaves zeros in the other positions and
    fails the stream. *)
Theorem read_nums_short (xs : list Z) (n : nat) :
  Forall Int.is_int xs → (length xs < n)%nat →
  read_nums n 0 (IStream xs true) (replicate n 0)
  = (IStream [] false, xs ++ replicate (n - length xs) 0).
Proof.
  intros Hints Hlen.
  assert (Hgen : ∀ ys filled pad,
            Forall Int.is_int ys → (length ys < length pad)%nat →
            read_nums (length pad) (length filled) (IStream ys true)
                      (filled ++ pad)
            = (IStream [] false, filled ++ ys ++ drop (length ys) pad)).
  { clear. induction ys as [|y ys IH]; intros filled pad Hints Hlen.
    - destruct pad as [|z pad]; simpl in Hlen; [lia|].
      cbn [read_nums length]. unfold extract. simpl.
      rewrite lookup_app_r, Nat.sub_diag by lia. simpl.
      rewrite list_insert_id
        by (by rewrite lookup_app_r, Nat.sub_diag by lia).
      apply read_nums_failed.
    - destruct pad as [|z pad]; simpl in Hlen; [lia|].
      apply Forall_cons in Hints as [Hy Hys].
      cbn [read_nums length].
      rewrite (extract_int ys _ y Hy).
      replace (<[length filled := y]> (filled ++ z :: pad))
        with ((filled ++ [y]) ++ pad)
        by (by rewrite <- app_assoc, insert_app_r_alt, Nat.sub_diag by lia).
      replace (S (length filled)) with (length (filled ++ [y]))
        by (rewrite length_app; simpl; lia).
      rewrite (IH (filled ++ [y]) pad Hys ltac:(lia)).
      by rewrite <- app_assoc. }
  specialize (Hgen xs [] (replicate n 0) Hints).
  rewrite length_replicate in Hgen. simpl in Hgen.
  rewrite Hgen by done. by rewrite drop_replicate.
Qed.

(** ** Instances of the further properties *)

Lemma twoSum_pair_iff_witness :
  int_vector [3; 2; 4] ∧ Int.is_int 6 ∧
  valid_pair [3; 2; 4] 6 1 2 ∧
  (∀ a b, valid_pair [3; 2; 4] 6 a b → (2 ≤ b)%nat) ∧
  (∀ a, valid_pair [3; 2; 4] 6 a 2 → (a ≤ 1)%nat).
Proof.
  assert (Hv : int_vector [3; 2; 4]) by solve_int_vector.
  assert (Ht : Int.is_int 6) by solve_is_int.
  split_and!; [exact Hv | exact Ht | ..];
    apply (proj1 (twoSum_pair_iff [3; 2; 4] 6 1 2 Hv Ht) eq_refl).
Defined.

Lemma twoSum_ignores_tail_witness :
  int_vector [3; 2; 4] ∧ int_vector [3; 2; 4; 9; 9] ∧ Int.is_int 6 ∧
  twoSum [3; 2; 4] 6 = Some [Z.of_nat 1; Z.of_nat 2] ∧
  take 3 [3; 2; 4; 9; 9] = take 3 [3; 2; 4] ∧
  twoSum [3; 2; 4; 9; 9] 6 = Some [Z.of_nat 1; Z.of_nat 2].
Proof.
  assert (Hv : int_vector [3; 2; 4]) by solve_int_vector.
  assert (Hv' : int_vector [3; 2; 4; 9; 9]) by solve_int_vector.
  assert (Ht : Int.is_int 6) by solve_is_int.
  split_and!; [exact Hv | exact Hv' | exact Ht | reflexivity | reflexivity |].
  exact (twoSum_ignores_tail [3; 2; 4] [3; 2; 4; 9; 9] 6 1 2
           Hv Hv' Ht eq_refl eq_refl).
Defined.

Lemma twoSum_short_vector_witness :
  (length [5] ≤ 1)%nat ∧ twoSum [5] 10 = Some [].
Proof.
  assert (Hlen : (length [5] ≤ 1)%nat) by (simpl; lia).
  split; [exact Hlen | exact (twoSum_short_vector [5] 10 Hlen)].
Defined.

Lemma twoSum_never_out_of_bounds_witness :
  int_vector [2; 7; 11; 15] ∧ Int.is_int 9 ∧
  Forall (λ x, Int.is_int (9 - x)) [2; 7; 11; 15] ∧
  run 1 9 (enter [2; 7; 11; 15]) ≠ Undefined ∧
  ∃ s, run 1 9 (enter [2; 7; 11; 15]) = Running s ∧
       ∃ x, 0 <= i s < Z.of_nat (length (nums s)) ∧
            nums s !! Z.to_nat (i s) = Some x ∧
            at_int (nums s) (i s) = Some x ∧
            Int.is_int (9 - x) ∧ Int.sub 9 x = 9 - x ∧
            Int.is_int (i s + 1) ∧ Int.add (i s) 1 = i s + 1.
Proof.
  assert (Hv : int_vector [2; 7; 11; 15]) by solve_int_vector.
  assert (Ht : Int.is_int 9) by solve_is_int.
  assert (Hsub : Forall (λ x, Int.is_int (9 - x)) [2; 7; 11; 15])
    by (repeat constructor; by vm_compute).
  split_and!; [exact Hv | exact Ht | exact Hsub | |].
  - exact (proj1 (twoSum_never_out_of_bounds [2; 7; 11; 15] 9 1 Hv Ht Hsub)).
  - eexists. split; [reflexivity|].
    exact (proj2 (twoSum_never_out_of_bounds [2; 7; 11; 15] 9 1 Hv Ht Hsub)
             _ eq_refl).
Defined.

Lemma seen_keys_witness :
  int_vector [1; 1; 5] ∧ Int.is_int 6 ∧
  ∃ s, run 2 6 (enter [1; 1; 5]) = Running s ∧
       dom (seen s) = list_to_set (take 2 [1; 1; 5]).
Proof.
  assert (Hv : int_vector [1; 1; 5]) by solve_int_vector.
  assert (Ht : Int.is_int 6) by solve_is_int.
  split_and!; [exact Hv | exact Ht |].
  eexists. split; [reflexivity|].
  exact (seen_keys [1; 1; 5] 6 2 _ Hv Ht eq_refl).
Defined.

Lemma iteration_reached_iff_witness :
  int_vector [3; 2; 4] ∧ Int.is_int 6 ∧
  (1 < length [3; 2; 4]%Z)%nat ∧
  ∀ a b, (b < 1)%nat → ¬ valid_pair [3; 2; 4] 6 a b.
Proof.
  assert (Hv : int_vector [3; 2; 4]) by solve_int_vector.
  assert (Ht : Int.is_int 6) by solve_is_int.
  split_and!; [exact Hv | exact Ht | ..];
    apply (proj1 (iteration_reached_iff [3; 2; 4] 6 1 Hv Ht));
    eexists; reflexivity.
Defined.

Lemma twoSum_cost_exact_witness :
  (int_vector [1; 2; 3] ∧ Int.is_int 100 ∧
   twoSum [1; 2; 3] 100 = Some [] ∧
   twoSum_cost [1; 2; 3]%Z 100%Z = (5 * length [1; 2; 3]%Z + 1)%nat) ∧
  (int_vector [3; 2; 4] ∧ Int.is_int 6 ∧
   twoSum [3; 2; 4] 6 = Some [Z.of_nat 1; Z.of_nat 2] ∧
   twoSum_cost [3; 2; 4]%Z 6%Z = (5 * 2 + 4)%nat).
Proof.
  assert (Hv : int_vector [1; 2; 3]) by solve_int_vector.
  assert (Ht : Int.is_int 100) by solve_is_int.
  assert (Hv' : int_vector [3; 2; 4]) by solve_int_vector.
  assert (Ht' : Int.is_int 6) by solve_is_int.
  split; split_and!;
    [exact Hv | exact Ht | reflexivity | | exact Hv' | exact Ht' | reflexivity |].
  - exact (proj1 (twoSum_cost_exact [1; 2; 3] 100 Hv Ht) eq_refl).
  - exact (proj2 (twoSum_cost_exact [3; 2; 4] 6 Hv' Ht') 1%nat 2%nat eq_refl).
Defined.

Lemma main_short_input_undefined_witness :
  0 <= 3 ∧ (length [1; 2]%Z ≤ Z.to_nat 3)%nat ∧
  main [3; 1; 2] = UndefinedBehaviour.
Proof.
  assert (Hn : 0 <= 3) by lia.
  assert (Hlen : (length [1; 2]%Z ≤ Z.to_nat 3)%nat) by (simpl; lia).
  split_and!; [exact Hn | exact Hlen |].
  exact (main_short_input_undefined 3 [1; 2] Hn Hlen).
Defined.


Lemma main_prints_first_pair_witness :
  int_vector [2; 7; 11; 15] ∧ Int.is_int 9 ∧ has_pair [2; 7; 11; 15] 9 ∧
  main (Z.of_nat (length [2; 7; 11; 15]) :: [2; 7; 11; 15] ++ 9 :: [])
  = Printed "[0,1]" ∧
  ∃ (p j : nat) (x y : Z) (a b : string),
    main (Z.of_nat (length [2; 7; 11; 15]) :: [2; 7; 11; 15] ++ 9 :: [])
    = Printed ("[" +:+ a +:+ "," +:+ b +:+ "]") ∧
    numeral_value a = Some (Z.of_nat p) ∧
    numeral_value b = Some (Z.of_nat j) ∧
    (p < j)%nat ∧ [2; 7; 11; 15] !! p = Some x ∧
    [2; 7; 11; 15] !! j = Some y ∧
    Int.add x y = 9 ∧
    ∀ a' b', valid_pair [2; 7; 11; 15] 9 a' b' → (j ≤ b')%nat.
Proof.
  assert (Hv : int_vector [2; 7; 11; 15]) by solve_int_vector.
  assert (Ht : Int.is_int 9) by solve_is_int.
  assert (Hp : has_pair [2; 7; 11; 15] 9) by solve_has_pair 0%nat 1%nat.
  split_and!; [exact Hv | exact Ht | exact Hp | reflexivity |].
  exact (main_prints_first_pair [2; 7; 11; 15] 9 [] Hv Ht Hp).
Defined.

Lemma main_ignores_trailing_input_witness :
  int_vector [1; 2; 3] ∧ Int.is_int 100 ∧
  main (Z.of_nat (length [1; 2; 3]) :: [1; 2; 3] ++ 100 :: [8; 8]) =
  main (Z.of_nat (length [1; 2; 3]) :: [1; 2; 3] ++ [100]).
Proof.
  assert (Hv : int_vector [1; 2; 3]) by solve_int_vector.
  assert (Ht : Int.is_int 100) by solve_is_int.
  split_and!; [exact Hv | exact Ht |].
  exact (main_ignores_trailing_input [1; 2; 3] 100 [8; 8] Hv Ht).
Defined.

Lemma read_nums_short_witness :
  Forall Int.is_int [1; 2] ∧ (length [1; 2]%Z < 4)%nat ∧
  read_nums 4 0 (IStream [1; 2] true) (replicate 4 0)
  = (IStream [] false, [1; 2] ++ replicate (4 - length [1; 2]%Z) 0).
Proof.
  assert (Hints : Forall Int.is_int [1; 2])
    by (repeat constructor; by vm_compute).
  assert (Hlen : (length [1; 2]%Z < 4)%nat) by (simpl; lia).
  split_and!; [exact Hints | exact Hlen |].
  exact (read_nums_short [1; 2] 4 Hints Hlen).
Defined.
